(** * Working-hours interval model of Telegram Desktop

    A shallow embedding of [Data::WorkingInterval], [Data::WorkingIntervals]
    and [Data::WorkingHours] from
    [Telegram/SourceFiles/data/business/data_business_common.h], followed by
    the properties of the interval algebra and of the weekly schedule. *)

From Stdlib Require Import ZArith List Bool Lia String Sorted Permutation.
Import ListNotations.
Local Open Scope Z_scope.

(** ** [TimeId]

    [TimeId] is the 32-bit signed integer the code base uses for second
    counts (its declaration is outside the header).  A value is a [Z] in
    [[-2^31, 2^31)]; addition is written out with its two's-complement
    wrap-around. *)

Definition TimeId := Z.

Definition TimeId_half : Z := 2147483648.
Definition TimeId_modulus : Z := 4294967296.

Definition in_TimeId (x : Z) : Prop := - TimeId_half <= x < TimeId_half.

Definition wrap32 (x : Z) : TimeId :=
  (x + TimeId_half) mod TimeId_modulus - TimeId_half.

Definition TimeId_add (x y : TimeId) : TimeId := wrap32 (x + y).

(** ** [struct WorkingInterval] *)

Definition kDay : TimeId := 24 * 3600.
Definition kWeek : TimeId := 7 * kDay.
Definition kInNextDayMax : TimeId := 6 * 3600.

Record WorkingInterval : Type := mkInterval {
  start : TimeId;
  end_ : TimeId
}.

(** [WorkingInterval()]: both members default to 0. *)
Definition WorkingInterval_default : WorkingInterval := mkInterval 0 0.

(** [explicit operator bool() const { return start < end; }] *)
Definition interval_bool (a : WorkingInterval) : bool :=
  start a <? end_ a.

(** [shifted(offset)]: [{ start + offset, end + offset }]. *)
Definition shifted (a : WorkingInterval) (offset : TimeId) : WorkingInterval :=
  mkInterval (TimeId_add (start a) offset) (TimeId_add (end_ a) offset).

(** [united(other)]. *)
Definition united (a other : WorkingInterval) : WorkingInterval :=
  if negb (interval_bool a) then other
  else if negb (interval_bool other) then a
  else mkInterval (Z.min (start a) (start other))
                  (Z.max (end_ a) (end_ other)).

(** [intersected(other)]. *)
Definition intersected (a other : WorkingInterval) : WorkingInterval :=
  let result := mkInterval (Z.max (start a) (start other))
                           (Z.min (end_ a) (end_ other)) in
  if interval_bool result then result else WorkingInterval_default.

(** The members of an interval are [TimeId] values. *)
Definition interval_in_range (a : WorkingInterval) : Prop :=
  in_TimeId (start a) /\ in_TimeId (end_ a).

(** The time points of the half-open range [[start, end)]. *)
Definition covers (a : WorkingInterval) (t : Z) : Prop :=
  start a <= t < end_ a.

(** ** [struct WorkingIntervals] *)

Record WorkingIntervals : Type := mkIntervals {
  list_ : list WorkingInterval
}.

(** The loop of [WorkingIntervals::operator bool]: return [true] at the
    first interval that converts to [true], [false] after the last one. *)
Fixpoint any_interval (l : list WorkingInterval) : bool :=
  match l with
  | [] => false
  | interval :: rest =>
      if interval_bool interval then true else any_interval rest
  end.

Definition intervals_bool (s : WorkingIntervals) : bool :=
  any_interval (list_ s).

(** ** [QString] and [struct WorkingHours] *)

Definition QString := string.

Definition isEmpty (s : QString) : bool :=
  match s with
  | EmptyString => true
  | String _ _ => false
  end.

Record WorkingHours : Type := mkHours {
  intervals : WorkingIntervals;
  timezoneId : QString
}.

(** [explicit operator bool() const { return !timezoneId.isEmpty(); }] *)
Definition hours_bool (h : WorkingHours) : bool :=
  negb (isEmpty (timezoneId h)).

(** ** Weekly-schedule normalization

    The header declares [WorkingIntervals::normalized], [ExtractDayIntervals],
    [RemoveDayIntervals] and [ReplaceDayIntervals]; their bodies are in a
    translation unit outside the sources at hand, so they are modelled from
    the specification (sections 4.2 and 4.3), on top of the interval
    operations above. *)

(** Modelled from the spec: step 1 of the normalization algorithm,
    "Discard empty intervals" (body of [WorkingIntervals::normalized]
    missing). *)
Definition discard_empty (l : list WorkingInterval) : list WorkingInterval :=
  filter interval_bool l.

(** Modelled from the spec: the order of step 2, "by [start] ascending
    (tie-break by [end] ascending)" (body of [WorkingIntervals::normalized]
    missing). *)
Definition interval_leb (a b : WorkingInterval) : bool :=
  (start a <? start b) || ((start a =? start b) && (end_ a <=? end_ b)).

(** Modelled from the spec: step 2, sorting by insertion (body of
    [WorkingIntervals::normalized] missing). *)
Fixpoint insert_sorted (a : WorkingInterval) (l : list WorkingInterval)
  : list WorkingInterval :=
  match l with
  | [] => [a]
  | b :: rest =>
      if interval_leb a b then a :: b :: rest else b :: insert_sorted a rest
  end.

(** Modelled from the spec: step 2, "Sort remaining intervals" (body of
    [WorkingIntervals::normalized] missing). *)
Fixpoint sort_intervals (l : list WorkingInterval) : list WorkingInterval :=
  match l with
  | [] => []
  | a :: rest => insert_sorted a (sort_intervals rest)
  end.

(** Modelled from the spec: "flush the accumulator to the output list",
    and step 4, "Flush the final accumulator if non-empty" (body of
    [WorkingIntervals::normalized] missing). *)
Definition flush (acc : WorkingInterval) : list WorkingInterval :=
  if interval_bool acc then [acc] else [].

(** Modelled from the spec: steps 3 and 4, the left-to-right sweep: the
    next interval is merged into the accumulator via [united] when
    [next.start <= accumulator.end]; otherwise the accumulator is flushed
    and the next interval becomes the accumulator (body of
    [WorkingIntervals::normalized] missing). *)
Fixpoint sweep (acc : WorkingInterval) (l : list WorkingInterval)
  : list WorkingInterval :=
  match l with
  | [] => flush acc
  | next :: rest =>
      if start next <=? end_ acc
      then sweep (united acc next) rest
      else flush acc ++ sweep next rest
  end.

(** Modelled from the spec: steps 1 to 4 in sequence, the sweep starting
    from an empty accumulator (body of [WorkingIntervals::normalized]
    missing). *)
Definition merge_pass (l : list WorkingInterval) : list WorkingInterval :=
  sweep WorkingInterval_default (sort_intervals (discard_empty l)).

(** Modelled from the spec: [WorkingIntervals::normalized] on the list:
    steps 1 to 4, then step 5, the week wrap-around.  For step 5 the
    specification says what must hold of a tail that reaches past [kWeek]
    and leaves the procedure open (its section 9 lists it as an open
    question), so the step is a parameter here: [wrap_around], any function
    applied to the merged list (body missing from the sources). *)
Definition normalized_list
    (wrap_around : list WorkingInterval -> list WorkingInterval)
    (l : list WorkingInterval) : list WorkingInterval :=
  wrap_around (merge_pass l).

(** Modelled from the spec: [WorkingIntervals::normalized] (declared in
    the header, body missing from the sources). *)
Definition normalized
    (wrap_around : list WorkingInterval -> list WorkingInterval)
    (s : WorkingIntervals) : WorkingIntervals :=
  mkIntervals (normalized_list wrap_around (list_ s)).

(** [WorkingHours::normalized], as in the header. *)
Definition hours_normalized
    (wrap_around : list WorkingInterval -> list WorkingInterval)
    (h : WorkingHours) : WorkingHours :=
  mkHours (normalized wrap_around (intervals h)) (timezoneId h).

(** ** Per-day extraction, removal and replacement *)

(** Modelled from the spec: the day's window
    [[dayIndex * kDay, (dayIndex+1) * kDay)] "extended by up to
    [kInNextDayMax] seconds past its end" (bodies of the three day
    functions missing). *)
Definition day_window (dayIndex : Z) : WorkingInterval :=
  mkInterval (dayIndex * kDay) ((dayIndex + 1) * kDay + kInNextDayMax).

(** Modelled from the spec: what [ExtractDayIntervals] takes from one
    interval: the interval "clipped via [intersected]" to "that day's
    extended window", when something of it falls within the window, in
    day-relative offsets, the form that [ReplaceDayIntervals] shifts back
    onto the day (body missing from the sources). *)
Definition extract_piece (dayIndex : Z) (interval : WorkingInterval)
  : list WorkingInterval :=
  let clipped := intersected interval (day_window dayIndex) in
  if interval_bool clipped
  then [shifted clipped (- (dayIndex * kDay))]
  else [].

(** Modelled from the spec: [ExtractDayIntervals], "the sub-list of
    intervals (clipped via [intersected]) that fall within that day's
    extended window" (body missing from the sources). *)
Definition ExtractDayIntervals (s : WorkingIntervals) (dayIndex : Z)
  : WorkingIntervals :=
  mkIntervals (flat_map (extract_piece dayIndex) (list_ s)).

(** Modelled from the spec: what [RemoveDayIntervals] leaves of one
    interval, "that day's window subtracted": the part before the window
    and the part after it, each kept when non-empty.  The window is the
    extended one, so that extracting the day from the result yields
    nothing (body missing from the sources). *)
Definition remove_pieces (dayIndex : Z) (interval : WorkingInterval)
  : list WorkingInterval :=
  let window := day_window dayIndex in
  flush (mkInterval (start interval)
                    (Z.min (end_ interval) (start window)))
  ++ flush (mkInterval (Z.max (start interval) (end_ window))
                       (end_ interval)).

(** Modelled from the spec: [RemoveDayIntervals], "a new schedule with
    that day's window subtracted from every interval" (body missing from
    the sources). *)
Definition RemoveDayIntervals (s : WorkingIntervals) (dayIndex : Z)
  : WorkingIntervals :=
  mkIntervals (flat_map (remove_pieces dayIndex) (list_ s)).

(** Modelled from the spec: [ReplaceDayIntervals], "[RemoveDayIntervals]
    followed by inserting [replacement] (shifted onto that day's absolute
    position) and re-normalizing" (body missing from the sources). *)
Definition ReplaceDayIntervals
    (wrap_around : list WorkingInterval -> list WorkingInterval)
    (s : WorkingIntervals) (dayIndex : Z)
    (replacement : WorkingIntervals) : WorkingIntervals :=
  normalized wrap_around
    (mkIntervals
       (list_ (RemoveDayIntervals s dayIndex)
        ++ map (fun interval => shifted interval (dayIndex * kDay))
               (list_ replacement))).

(** ** Predicates used in the statements *)

(** A list of intervals covers the time points its members cover. *)
Definition covered (l : list WorkingInterval) (t : Z) : Prop :=
  exists a, In a l /\ covers a t.

(** The shape the merge produces: every interval non-empty, and each one
    ending strictly before the next one starts. *)
Fixpoint separated (l : list WorkingInterval) : Prop :=
  match l with
  | [] => True
  | a :: rest =>
      start a < end_ a
      /\ match rest with
         | [] => True
         | b :: _ => end_ a < start b
         end
      /\ separated rest
  end.

(** ** The rest of the header: flags, location, details *)

(** [enum class BusinessChatType]. *)
Inductive BusinessChatType : Type :=
| NewChats
| ExistingChats
| Contacts
| NonContacts.

(** The enumerator values, [(1 << 0)] to [(1 << 3)]. *)
Definition BusinessChatType_value (type : BusinessChatType) : Z :=
  match type with
  | NewChats => Z.shiftl 1 0
  | ExistingChats => Z.shiftl 1 1
  | Contacts => Z.shiftl 1 2
  | NonContacts => Z.shiftl 1 3
  end.

(** [is_flag_type(BusinessChatType)] marks the enumeration as a set of
    flags: a [BusinessChatTypes] value is the bitwise or of the enumerators
    it holds. *)
Definition is_flag_type (type : BusinessChatType) : bool := true.

Definition BusinessChatTypes_of (types : list BusinessChatType) : Z :=
  fold_right (fun type mask => Z.lor (BusinessChatType_value type) mask)
             0 types.

(** [struct BusinessLocation]; [LocationPoint] is declared in another
    header and is a parameter here. *)
Record BusinessLocation (LocationPoint : Type) : Type := mkLocation {
  address : QString;
  point : LocationPoint
}.
Arguments mkLocation {LocationPoint} _ _.
Arguments address {LocationPoint} _.
Arguments point {LocationPoint} _.

(** [explicit operator bool() const { return !address.isEmpty(); }] *)
Definition location_bool {LocationPoint : Type}
    (l : BusinessLocation LocationPoint) : bool :=
  negb (isEmpty (address l)).

(** [struct BusinessDetails]. *)
Record BusinessDetails (LocationPoint : Type) : Type := mkDetails {
  hours : WorkingHours;
  location : BusinessLocation LocationPoint
}.
Arguments mkDetails {LocationPoint} _ _.
Arguments hours {LocationPoint} _.
Arguments location {LocationPoint} _.

(** [explicit operator bool() const { return hours || location; }] *)
Definition details_bool {LocationPoint : Type}
    (d : BusinessDetails LocationPoint) : bool :=
  hours_bool (hours d) || location_bool (location d).

(** A shift that leaves both members inside the [TimeId] range. *)
Definition shift_in_range (a : WorkingInterval) (offset : Z) : Prop :=
  in_TimeId (start a + offset) /\ in_TimeId (end_ a + offset).

(** ** Shared media in a separate window
    ([info/profile/info_profile_inner_widget.cpp]) *)

Module Storage.

(** [Storage::SharedMediaType] is an [enum class] declared outside the
    file; the seven enumerators that [ToSeparateType] names are taken as
    parameters, by their underlying integer values. *)
Record SharedMediaType_values : Type := mkValues {
  Photo : Z;
  Video : Z;
  File : Z;
  MusicFile : Z;
  Link : Z;
  RoundVoiceFile : Z;
  GIF : Z
}.

(** The enumerators [ToSeparateType] compares with, in the order of its
    tests. *)
Definition separable (E : SharedMediaType_values) : list Z :=
  [Photo E; Video E; File E; MusicFile E; Link E; RoundVoiceFile E; GIF E].

End Storage.

Module Window.

(** The enumerators of [Window::SeparateSharedMediaType] that
    [ToSeparateType] returns. *)
Inductive SeparateSharedMediaType : Type :=
| None
| Photos
| Videos
| Files
| Audio
| Links
| Voices
| GIF.

End Window.

(** [ToSeparateType(type)]: the chain of conditional expressions. *)
Definition ToSeparateType (E : Storage.SharedMediaType_values) (type : Z)
  : Window.SeparateSharedMediaType :=
  if type =? Storage.Photo E then Window.Photos
  else if type =? Storage.Video E then Window.Videos
  else if type =? Storage.File E then Window.Files
  else if type =? Storage.MusicFile E then Window.Audio
  else if type =? Storage.Link E then Window.Links
  else if type =? Storage.RoundVoiceFile E then Window.Voices
  else if type =? Storage.GIF E then Window.GIF
  else Window.None.

(** [SeparateWindowFactory(controller, peer, type)]: [nullptr] for the
    separate type [None]; otherwise a callback, given here by the
    [Window::SeparateId(separateType, peer)] it shows in a new window. *)
Definition SeparateWindowFactory {PeerData : Type}
    (E : Storage.SharedMediaType_values) (peer : PeerData) (type : Z)
  : option (Window.SeparateSharedMediaType * PeerData) :=
  let separateType := ToSeparateType E type in
  match separateType with
  | Window.None => Datatypes.None
  | _ => Some (separateType, peer)
  end.

(** ** Arithmetic of [TimeId] *)

Section TimeIdFacts.

Lemma wrap32_in_range (x : Z) : in_TimeId x -> wrap32 x = x.
Proof.
  unfold in_TimeId, wrap32, TimeId_half, TimeId_modulus. intros H.
  rewrite Z.mod_small; lia.
Qed.

Lemma wrap32_range (x : Z) : in_TimeId (wrap32 x).
Proof.
  unfold in_TimeId, wrap32, TimeId_half, TimeId_modulus.
  pose proof (Z.mod_pos_bound (x + 2147483648) 4294967296 eq_refl). lia.
Qed.

Lemma wrap32_add_sub (x k : Z) : wrap32 (wrap32 (x + k) + - k) = wrap32 x.
Proof.
  unfold wrap32.
  replace ((x + k + TimeId_half) mod TimeId_modulus - TimeId_half
           + - k + TimeId_half)
    with ((x + k + TimeId_half) mod TimeId_modulus - k) by lia.
  rewrite Zminus_mod_idemp_l. f_equal. f_equal. lia.
Qed.

End TimeIdFacts.

(** ** The interval algebra *)

Section IntervalAlgebra.

Lemma interval_bool_true (a : WorkingInterval) :
  interval_bool a = true <-> start a < end_ a.
Proof. unfold interval_bool. apply Z.ltb_lt. Qed.

Lemma interval_bool_false (a : WorkingInterval) :
  interval_bool a = false <-> end_ a <= start a.
Proof. unfold interval_bool. apply Z.ltb_ge. Qed.

Lemma united_empty_l (a b : WorkingInterval) :
  interval_bool a = false -> united a b = b.
Proof. unfold united. intros ->. reflexivity. Qed.

Lemma united_empty_r (a b : WorkingInterval) :
  interval_bool a = true -> interval_bool b = false -> united a b = a.
Proof. unfold united. intros -> ->. reflexivity. Qed.

Lemma united_nonempty (a b : WorkingInterval) :
  interval_bool a = true -> interval_bool b = true ->
  united a b = mkInterval (Z.min (start a) (start b))
                          (Z.max (end_ a) (end_ b)).
Proof. unfold united. intros -> ->. reflexivity. Qed.

Lemma united_nonempty_comm (a b : WorkingInterval) :
  interval_bool a = true -> interval_bool b = true ->
  united a b = united b a.
Proof.
  intros Ha Hb. rewrite !united_nonempty by assumption.
  now rewrite Z.min_comm, Z.max_comm.
Qed.

Lemma intersected_overlap (a b : WorkingInterval) :
  Z.max (start a) (start b) < Z.min (end_ a) (end_ b) ->
  intersected a b = mkInterval (Z.max (start a) (start b))
                               (Z.min (end_ a) (end_ b)).
Proof.
  intros H. unfold intersected, interval_bool. cbn.
  apply Z.ltb_lt in H. now rewrite H.
Qed.

Lemma intersected_disjoint (a b : WorkingInterval) :
  Z.min (end_ a) (end_ b) <= Z.max (start a) (start b) ->
  intersected a b = WorkingInterval_default.
Proof.
  intros H. unfold intersected, interval_bool. cbn.
  apply Z.ltb_ge in H. now rewrite H.
Qed.

Lemma covers_intersected (a b : WorkingInterval) (t : Z) :
  covers (intersected a b) t <-> covers a t /\ covers b t.
Proof.
  destruct (Z_lt_dec (Z.max (start a) (start b))
                     (Z.min (end_ a) (end_ b))) as [H | H].
  - rewrite intersected_overlap by assumption. unfold covers. cbn. lia.
  - rewrite intersected_disjoint by lia. unfold covers. cbn. lia.
Qed.

Lemma shifted_exact (a : WorkingInterval) (offset : Z) :
  in_TimeId (start a + offset) -> in_TimeId (end_ a + offset) ->
  shifted a offset = mkInterval (start a + offset) (end_ a + offset).
Proof.
  intros Hs He. unfold shifted, TimeId_add.
  now rewrite !wrap32_in_range.
Qed.

Lemma any_interval_true (l : list WorkingInterval) :
  any_interval l = true <-> exists a, In a l /\ start a < end_ a.
Proof.
  induction l as [| b rest IH]; cbn.
  - split; [discriminate | intros (a & [] & _)].
  - destruct (interval_bool b) eqn:Hb.
    + split; [| reflexivity]. intros _. exists b. split; [now left |].
      now apply interval_bool_true.
    + rewrite IH. apply interval_bool_false in Hb.
      split; intros (a & Hin & Ha).
      * exists a. split; [now right | assumption].
      * destruct Hin as [-> | Hin]; [lia |]. now exists a.
Qed.

End IntervalAlgebra.

(** C8.  The bool conversion of an interval is the comparison of its
    endpoints: it is [true] exactly when [start < end], and the interval is
    empty (conversion [false]) exactly when [start >= end]. *)
Theorem interval_bool_spec (a : WorkingInterval) :
  (interval_bool a = true <-> start a < end_ a)
  /\ (interval_bool a = false <-> start a >= end_ a).
Proof.
  split.
  - apply interval_bool_true.
  - rewrite interval_bool_false. lia.
Qed.

(** C2.  [a.united(b)] returns [b] unchanged when [a] is empty, returns
    [a] unchanged when [b] is empty and [a] is not, and otherwise is
    [{min(a.start, b.start), max(a.end, b.end)}], whether or not the two
    overlap. *)
Theorem united_spec (a b : WorkingInterval) :
  (interval_bool a = false -> united a b = b)
  /\ (interval_bool a = true -> interval_bool b = false -> united a b = a)
  /\ (interval_bool a = true -> interval_bool b = true ->
      united a b = mkInterval (Z.min (start a) (start b))
                              (Z.max (end_ a) (end_ b))).
Proof.
  split; [| split].
  - apply united_empty_l.
  - apply united_empty_r.
  - apply united_nonempty.
Qed.

(** The bounding union of two intervals that do not overlap, and the
    identity cases, at concrete operands. *)
Lemma united_spec_witness :
  united (mkInterval 0 10) (mkInterval 20 30) = mkInterval 0 30
  /\ united (mkInterval 7 7) (mkInterval 20 30) = mkInterval 20 30
  /\ united (mkInterval 0 10) (mkInterval 9 2) = mkInterval 0 10.
Proof.
  split; [| split].
  - apply (proj2 (proj2 (united_spec (mkInterval 0 10) (mkInterval 20 30))));
      reflexivity.
  - apply (proj1 (united_spec (mkInterval 7 7) (mkInterval 20 30)));
      reflexivity.
  - apply (proj1 (proj2 (united_spec (mkInterval 0 10) (mkInterval 9 2))));
      reflexivity.
Defined.

(** C3.  Two intervals overlap (share a time point) exactly when
    [max(a.start, b.start) < min(a.end, b.end)]; then [a.intersected(b)] is
    that range, and otherwise it is the canonical empty interval [{0, 0}],
    never a range of negative width. *)
Theorem intersected_spec (a b : WorkingInterval) :
  ((exists t, covers a t /\ covers b t)
   <-> Z.max (start a) (start b) < Z.min (end_ a) (end_ b))
  /\ (Z.max (start a) (start b) < Z.min (end_ a) (end_ b) ->
      intersected a b = mkInterval (Z.max (start a) (start b))
                                   (Z.min (end_ a) (end_ b)))
  /\ (~ Z.max (start a) (start b) < Z.min (end_ a) (end_ b) ->
      intersected a b = mkInterval 0 0).
Proof.
  split; [| split].
  - unfold covers. split.
    + intros (t & Ha & Hb). lia.
    + intros H. exists (Z.max (start a) (start b)). lia.
  - apply intersected_overlap.
  - intros H. apply intersected_disjoint. lia.
Qed.

(** An overlapping pair and a disjoint pair. *)
Lemma intersected_spec_witness :
  intersected (mkInterval 0 100) (mkInterval 50 150) = mkInterval 50 100
  /\ intersected (mkInterval 0 10) (mkInterval 20 30) = mkInterval 0 0.
Proof.
  split.
  - apply (proj1 (proj2 (intersected_spec (mkInterval 0 100)
                                          (mkInterval 50 150)))).
    cbn. lia.
  - apply (proj2 (proj2 (intersected_spec (mkInterval 0 10)
                                          (mkInterval 20 30)))).
    cbn. lia.
Defined.

(** C6.  [united] is commutative on two non-empty intervals that overlap
    or touch. *)
Theorem united_comm (a b : WorkingInterval) :
  interval_bool a = true ->
  interval_bool b = true ->
  start a <= end_ b /\ start b <= end_ a ->
  united a b = united b a.
Proof.
  intros Ha Hb _. now apply united_nonempty_comm.
Qed.

Lemma united_comm_witness :
  united (mkInterval 0 100) (mkInterval 50 150)
  = united (mkInterval 50 150) (mkInterval 0 100).
Proof.
  apply (united_comm (mkInterval 0 100) (mkInterval 50 150)).
  - reflexivity.
  - reflexivity.
  - cbn. lia.
Defined.

(** C7.  [kWeek] is 604800, and shifting an interval by [+kWeek] and then
    by [-kWeek] gives the interval back; [shifted] moves both members by
    the offset and clamps neither. *)
Theorem shifted_week_round_trip (a : WorkingInterval) :
  interval_in_range a ->
  kWeek = 604800
  /\ shifted (shifted a kWeek) (- kWeek) = a
  /\ (forall offset : Z,
        in_TimeId (start a + offset) -> in_TimeId (end_ a + offset) ->
        shifted a offset = mkInterval (start a + offset) (end_ a + offset)).
Proof.
  intros [Hs He]. split; [reflexivity | split].
  - destruct a as [s e]. unfold shifted, TimeId_add. cbn in *.
    rewrite !wrap32_add_sub, !wrap32_in_range by assumption. reflexivity.
  - intros offset. apply shifted_exact.
Qed.

(** The round trip next to the upper end of the [TimeId] range, where the
    first shift wraps around. *)
Lemma shifted_week_round_trip_witness :
  shifted (shifted (mkInterval 2147000000 2147483647) kWeek) (- kWeek)
  = mkInterval 2147000000 2147483647.
Proof.
  apply (shifted_week_round_trip (mkInterval 2147000000 2147483647)).
  unfold interval_in_range, in_TimeId, TimeId_half. cbn. lia.
Defined.

(** C9.  A [WorkingHours] value converts to [true] exactly when its
    timezone identifier is not the empty string, whatever its intervals
    are. *)
Theorem hours_bool_spec (h : WorkingHours) :
  (hours_bool h = true <-> timezoneId h <> EmptyString)
  /\ (forall other : WorkingIntervals,
        hours_bool (mkHours other (timezoneId h)) = hours_bool h).
Proof.
  split.
  - unfold hours_bool. destruct (timezoneId h); cbn.
    + split; [discriminate | congruence].
    + split; [discriminate | reflexivity].
  - reflexivity.
Qed.

(** C10.  A [WorkingIntervals] value converts to [true] exactly when one
    of its intervals has [start < end]; a list of empty intervals only, and
    the empty list, convert to [false]. *)
Theorem intervals_bool_spec (s : WorkingIntervals) :
  (intervals_bool s = true
   <-> exists a, In a (list_ s) /\ start a < end_ a)
  /\ (Forall (fun a => end_ a <= start a) (list_ s) ->
      intervals_bool s = false)
  /\ intervals_bool (mkIntervals []) = false.
Proof.
  split; [| split].
  - apply any_interval_true.
  - intros Hall. destruct (intervals_bool s) eqn:Hb; [| reflexivity].
    apply any_interval_true in Hb. destruct Hb as (a & Hin & Ha).
    rewrite Forall_forall in Hall. specialize (Hall a Hin). lia.
  - reflexivity.
Qed.

(** A list of two empty intervals converts to [false]. *)
Lemma intervals_bool_spec_witness :
  intervals_bool (mkIntervals [mkInterval 5 5; mkInterval 9 2]) = false.
Proof.
  apply (proj1 (proj2 (intervals_bool_spec
                         (mkIntervals [mkInterval 5 5; mkInterval 9 2])))).
  cbn. repeat constructor; cbn; lia.
Defined.

(** C1, as stated, does not hold: that every operation returns [{0, 0}]
    whenever its result is empty fails for [shifted], which moves the canonical empty interval
    away from [{0, 0}], and for [united], which hands back an empty
    operand as it is. *)
Lemma canonical_emptiness_counterexample :
  (end_ (shifted (mkInterval 0 0) kWeek)
   <= start (shifted (mkInterval 0 0) kWeek)
   /\ shifted (mkInterval 0 0) kWeek <> mkInterval 0 0)
  /\ (end_ (united (mkInterval 0 0) (mkInterval 5 3))
      <= start (united (mkInterval 0 0) (mkInterval 5 3))
      /\ united (mkInterval 0 0) (mkInterval 5 3) <> mkInterval 0 0).
Proof.
  split; split.
  - vm_compute. discriminate.
  - vm_compute. discriminate.
  - vm_compute. discriminate.
  - vm_compute. discriminate.
Qed.

(** C1 (amended).  [intersected] returns the canonical empty interval
    [{0, 0}] whenever its result is empty.  [united] returns an empty
    result only when both operands are empty, and the result is then
    [other], unchanged.  [shifted], when no addition overflows, returns
    [{start + offset, end + offset}], which is empty exactly when the
    interval it is applied to is empty; it does not normalize. *)
Theorem canonical_emptiness (a b : WorkingInterval) :
  (interval_bool (intersected a b) = false ->
   intersected a b = mkInterval 0 0)
  /\ (interval_bool (united a b) = false ->
      united a b = b
      /\ interval_bool a = false /\ interval_bool b = false)
  /\ (forall offset : Z,
        in_TimeId (start a + offset) -> in_TimeId (end_ a + offset) ->
        shifted a offset = mkInterval (start a + offset) (end_ a + offset)
        /\ interval_bool (shifted a offset) = interval_bool a).
Proof.
  split; [| split].
  - unfold intersected.
    destruct (interval_bool
                (mkInterval (Z.max (start a) (start b))
                            (Z.min (end_ a) (end_ b)))) eqn:H; cbn.
    + congruence.
    + reflexivity.
  - destruct (interval_bool a) eqn:Ha.
    + destruct (interval_bool b) eqn:Hb.
      * rewrite united_nonempty by assumption. intros H.
        apply interval_bool_true in Ha, Hb. apply interval_bool_false in H.
        cbn in H. lia.
      * rewrite united_empty_r by assumption. congruence.
    + rewrite united_empty_l by assumption. auto.
  - intros offset Hs He. rewrite shifted_exact by assumption.
    split; [reflexivity |]. unfold interval_bool. cbn.
    destruct (start a <? end_ a) eqn:H.
    + apply Z.ltb_lt in H. apply Z.ltb_lt. lia.
    + apply Z.ltb_ge in H. apply Z.ltb_ge. lia.
Qed.

(** The intersection of two disjoint intervals and the union of two empty
    ones. *)
Lemma canonical_emptiness_witness :
  intersected (mkInterval 0 10) (mkInterval 20 30) = mkInterval 0 0
  /\ united (mkInterval 4 4) (mkInterval 0 0) = mkInterval 0 0.
Proof.
  split.
  - apply (proj1 (canonical_emptiness (mkInterval 0 10) (mkInterval 20 30))).
    reflexivity.
  - apply (proj1 (proj2 (canonical_emptiness (mkInterval 4 4)
                                             (mkInterval 0 0)))).
    reflexivity.
Defined.

(** ** Steps 1 to 4 of the normalization: discard, sort, sweep *)

Section MergePass.

Implicit Types (a b acc : WorkingInterval) (l : list WorkingInterval).

Local Abbreviation start_le := (fun a b => start a <= start b).

(** *** Coverage *)

Lemma covered_nil (t : Z) : ~ covered [] t.
Proof. intros (a & [] & _). Qed.

Lemma covered_cons a l (t : Z) :
  covered (a :: l) t <-> covers a t \/ covered l t.
Proof.
  unfold covered. cbn. split.
  - intros (x & [-> | Hin] & Hx); [now left | right; now exists x].
  - intros [Ha | (x & Hin & Hx)]; [exists a | exists x]; auto.
Qed.

Lemma covered_app l1 l2 (t : Z) :
  covered (l1 ++ l2) t <-> covered l1 t \/ covered l2 t.
Proof.
  unfold covered. split.
  - intros (x & Hin & Hx). apply in_app_or in Hin.
    destruct Hin; [left | right]; now exists x.
  - intros [(x & Hin & Hx) | (x & Hin & Hx)]; exists x;
      (split; [apply in_or_app; auto | assumption]).
Qed.

Lemma covers_nonempty a (t : Z) : covers a t -> interval_bool a = true.
Proof. unfold covers. intros H. apply interval_bool_true. lia. Qed.

Lemma covered_flush a (t : Z) : covered (flush a) t <-> covers a t.
Proof.
  unfold flush. destruct (interval_bool a) eqn:Ha.
  - rewrite covered_cons. pose proof (covered_nil t). tauto.
  - split.
    + intros H. now apply covered_nil in H.
    + intros H. apply covers_nonempty in H. congruence.
Qed.

Lemma covered_discard_empty l (t : Z) :
  covered (discard_empty l) t <-> covered l t.
Proof.
  unfold covered, discard_empty. split.
  - intros (a & Hin & Ha). apply filter_In in Hin. exists a. tauto.
  - intros (a & Hin & Ha). exists a. split; [| assumption].
    apply filter_In. split; [assumption |]. now apply covers_nonempty in Ha.
Qed.

(** *** Sorting *)

Lemma in_insert_sorted a b l :
  In a (insert_sorted b l) <-> a = b \/ In a l.
Proof.
  induction l as [| c rest IH]; cbn.
  - intuition congruence.
  - destruct (interval_leb b c); cbn; [| rewrite IH]; intuition congruence.
Qed.

Lemma in_sort_intervals a l : In a (sort_intervals l) <-> In a l.
Proof.
  induction l as [| b rest IH]; cbn; [tauto |].
  rewrite in_insert_sorted, IH. intuition congruence.
Qed.

Lemma covered_sort_intervals l (t : Z) :
  covered (sort_intervals l) t <-> covered l t.
Proof.
  unfold covered. split; intros (a & Hin & Ha); exists a;
    (split; [now apply in_sort_intervals | assumption]).
Qed.

Lemma interval_leb_start a b : interval_leb a b = true -> start a <= start b.
Proof. unfold interval_leb. lia. Qed.

Lemma interval_leb_total a b :
  interval_leb a b = false -> start b <= start a.
Proof. unfold interval_leb. lia. Qed.

Lemma insert_sorted_ascending a l :
  StronglySorted start_le l -> StronglySorted start_le (insert_sorted a l).
Proof.
  induction 1 as [| b rest Hrest IH Hb]; cbn.
  - repeat constructor.
  - destruct (interval_leb a b) eqn:Hab.
    + apply interval_leb_start in Hab.
      constructor; [now constructor |].
      constructor; [assumption |].
      eapply Forall_impl; [| exact Hb]. cbn. intros; lia.
    + apply interval_leb_total in Hab. constructor; [assumption |].
      apply Forall_forall. intros x Hx. apply in_insert_sorted in Hx.
      destruct Hx as [-> | Hx]; [assumption |].
      rewrite Forall_forall in Hb. now apply Hb.
Qed.

Lemma sort_intervals_ascending l :
  StronglySorted start_le (sort_intervals l).
Proof.
  induction l as [| a rest IH]; cbn.
  - constructor.
  - now apply insert_sorted_ascending.
Qed.

Lemma sort_intervals_nonempty l :
  Forall (fun a => interval_bool a = true) l ->
  Forall (fun a => interval_bool a = true) (sort_intervals l).
Proof.
  rewrite !Forall_forall. intros H a Ha. apply H.
  now apply in_sort_intervals.
Qed.

Lemma discard_empty_nonempty l :
  Forall (fun a => interval_bool a = true) (discard_empty l).
Proof.
  apply Forall_forall. intros a Ha. now apply filter_In in Ha.
Qed.

(** *** The separated shape *)

Lemma separated_nonempty l :
  separated l -> Forall (fun a => interval_bool a = true) l.
Proof.
  induction l as [| a rest IH]; cbn.
  - constructor.
  - intros (Ha & _ & Hrest). constructor; [| now apply IH].
    now apply interval_bool_true.
Qed.

Lemma separated_later a l :
  separated (a :: l) -> Forall (fun b => end_ a < start b) l.
Proof.
  revert a. induction l as [| b rest IH]; intros a Hsep.
  - constructor.
  - destruct Hsep as (Ha & Hab & Hrest). constructor; [assumption |].
    pose proof Hrest as (Hb & _ & _).
    eapply Forall_impl; [| exact (IH b Hrest)]. cbn. intros; lia.
Qed.

Lemma separated_tail a l : separated (a :: l) -> separated l.
Proof. cbn. tauto. Qed.

Lemma discard_empty_separated l : separated l -> discard_empty l = l.
Proof.
  intros H. apply separated_nonempty in H. unfold discard_empty.
  induction H as [| a rest Ha _ IH]; cbn; [reflexivity |].
  now rewrite Ha, IH.
Qed.

Lemma sort_intervals_separated l : separated l -> sort_intervals l = l.
Proof.
  induction l as [| a rest IH]; [reflexivity |].
  intros Hsep. cbn [sort_intervals].
rewrite IH by exact (separated_tail _ _ Hsep).
  destruct rest as [| b rest']; [reflexivity |].
  destruct Hsep as (Ha & Hab & Hb & _). cbn.
  replace (interval_leb a b) with true; [reflexivity |].
  symmetry. unfold interval_leb. lia.
Qed.

End MergePass.


(** ** The sweep of steps 3 and 4 *)

Section Sweep.

Implicit Types (a b acc next : WorkingInterval) (l : list WorkingInterval).

Local Abbreviation start_le := (fun a b => start a <= start b).
Local Abbreviation nonempty := (fun a => interval_bool a = true).

Lemma united_ascending acc next :
  interval_bool acc = true -> interval_bool next = true ->
  start acc <= start next ->
  united acc next
  = mkInterval (start acc) (Z.max (end_ acc) (end_ next)).
Proof.
  intros Hacc Hnext Hle. rewrite united_nonempty by assumption.
  f_equal. lia.
Qed.

Lemma covers_united_ascending acc next (t : Z) :
  interval_bool acc = true -> interval_bool next = true ->
  start acc <= start next <= end_ acc ->
  covers (united acc next) t <-> covers acc t \/ covers next t.
Proof.
  intros Hacc Hnext Hle. rewrite united_ascending by tauto.
  apply interval_bool_true in Hacc, Hnext. unfold covers. cbn. lia.
Qed.

Lemma sweep_default l :
  sweep WorkingInterval_default l
  = match l with
    | [] => []
    | next :: rest => sweep next rest
    end.
Proof.
  destruct l as [| next rest]; [reflexivity |]. cbn [sweep].
  destruct (start next <=? end_ WorkingInterval_default); reflexivity.
Qed.

Lemma flush_nonempty a : interval_bool a = true -> flush a = [a].
Proof. unfold flush. now intros ->. Qed.

(** The sweep of a sorted list of non-empty intervals yields a separated
    list that begins where the accumulator begins. *)
Lemma sweep_shape l : forall acc,
  interval_bool acc = true ->
  Forall nonempty l ->
  StronglySorted start_le (acc :: l) ->
  exists e rest,
    sweep acc l = mkInterval (start acc) e :: rest
    /\ separated (mkInterval (start acc) e :: rest).
Proof.
  induction l as [| next l' IH]; intros acc Hacc Hne Hsorted.
  - exists (end_ acc), []. cbn. rewrite flush_nonempty by assumption.
    apply interval_bool_true in Hacc. destruct acc; cbn in *. auto.
  - apply StronglySorted_inv in Hsorted. destruct Hsorted as [Hs Hacc_le].
    apply Forall_cons_iff in Hne. destruct Hne as [Hnext Hne].
    apply Forall_cons_iff in Hacc_le. destruct Hacc_le as [Hle Hrest].
    cbn [sweep]. destruct (start next <=? end_ acc) eqn:Htouch.
    + assert (Hu := united_ascending acc next Hacc Hnext Hle).
      destruct (IH (united acc next)) as (e & rest & Heq & Hsep).
      * rewrite Hu. apply interval_bool_true in Hacc. apply interval_bool_true.
        cbn. lia.
      * assumption.
      * apply StronglySorted_inv in Hs. constructor; [tauto |].
        rewrite Hu. exact Hrest.
      * rewrite Hu in Heq, Hsep. cbn [start] in Heq, Hsep.
        rewrite Hu. eauto.
    + apply Z.leb_gt in Htouch.
      destruct (IH next Hnext Hne Hs) as (e & rest & Heq & Hsep).
      exists (end_ acc), (mkInterval (start next) e :: rest).
      rewrite flush_nonempty, Heq by assumption.
      apply interval_bool_true in Hacc. destruct acc; cbn in *. auto.
Qed.

(** The sweep covers what the accumulator and the list cover. *)
Lemma sweep_covered l (t : Z) : forall acc,
  interval_bool acc = true ->
  Forall nonempty l ->
  StronglySorted start_le (acc :: l) ->
  covered (sweep acc l) t <-> covers acc t \/ covered l t.
Proof.
  induction l as [| next l' IH]; intros acc Hacc Hne Hsorted.
  - cbn [sweep]. rewrite covered_flush. pose proof (covered_nil t). tauto.
  - apply StronglySorted_inv in Hsorted. destruct Hsorted as [Hs Hacc_le].
    apply Forall_cons_iff in Hne. destruct Hne as [Hnext Hne].
    apply Forall_cons_iff in Hacc_le. destruct Hacc_le as [Hle Hrest].
    cbn [sweep]. rewrite covered_cons.
    destruct (start next <=? end_ acc) eqn:Htouch.
    + apply Z.leb_le in Htouch.
      assert (Hu := united_ascending acc next Hacc Hnext Hle).
      rewrite IH.
      * rewrite covers_united_ascending by auto. tauto.
      * rewrite Hu. apply interval_bool_true in Hacc. apply interval_bool_true.
        cbn. lia.
      * assumption.
      * apply StronglySorted_inv in Hs. constructor; [tauto |].
        rewrite Hu. exact Hrest.
    + rewrite covered_app, covered_flush, IH by assumption. tauto.
Qed.

(** The sweep leaves a separated list as it is. *)
Lemma sweep_separated l : forall a, separated (a :: l) -> sweep a l = a :: l.
Proof.
  induction l as [| b l' IH]; intros a Hsep.
  - cbn. apply flush_nonempty, interval_bool_true. cbn in Hsep. tauto.
  - pose proof Hsep as (Ha & Hab & Hrest). cbn [sweep].
    replace (start b <=? end_ a) with false by (symmetry; apply Z.leb_gt; lia).
    rewrite flush_nonempty by now apply interval_bool_true.
    cbn. f_equal. now apply IH.
Qed.

(** *** Steps 1 to 4 together *)

Lemma merge_pass_separated l : separated (merge_pass l).
Proof.
  unfold merge_pass. rewrite sweep_default.
  pose proof (sort_intervals_ascending (discard_empty l)) as Hs.
  pose proof (sort_intervals_nonempty _ (discard_empty_nonempty l)) as Hne.
  destruct (sort_intervals (discard_empty l)) as [| next rest]; [exact I |].
  apply Forall_cons_iff in Hne. destruct Hne as [Hnext Hne].
  destruct (sweep_shape rest next Hnext Hne Hs) as (e & out & -> & Hsep).
  exact Hsep.
Qed.

Lemma merge_pass_covered l (t : Z) : covered (merge_pass l) t <-> covered l t.
Proof.
  rewrite <- (covered_discard_empty l).
  rewrite <- (covered_sort_intervals (discard_empty l)).
  unfold merge_pass. rewrite sweep_default.
  pose proof (sort_intervals_ascending (discard_empty l)) as Hs.
  pose proof (sort_intervals_nonempty _ (discard_empty_nonempty l)) as Hne.
  destruct (sort_intervals (discard_empty l)) as [| next rest]; [reflexivity |].
  apply Forall_cons_iff in Hne. destruct Hne as [Hnext Hne].
  rewrite sweep_covered by assumption. now rewrite covered_cons.
Qed.

Lemma merge_pass_fixed l : separated l -> merge_pass l = l.
Proof.
  intros Hsep. unfold merge_pass.
  rewrite discard_empty_separated, sort_intervals_separated by assumption.
  rewrite sweep_default. destruct l as [| a rest]; [reflexivity |].
  now apply sweep_separated.
Qed.

(** Steps 1 to 4 applied to their own result change nothing. *)
Lemma merge_pass_idempotent l : merge_pass (merge_pass l) = merge_pass l.
Proof. apply merge_pass_fixed, merge_pass_separated. Qed.

End Sweep.


(** The two normalizations the specification gives as examples, through
    steps 1 to 4. *)
Example merge_pass_merges_overlapping :
  merge_pass [mkInterval 0 100; mkInterval 50 150] = [mkInterval 0 150].
Proof. vm_compute. reflexivity. Qed.

Example merge_pass_keeps_disjoint :
  merge_pass [mkInterval 0 100; mkInterval 200 300]
  = [mkInterval 0 100; mkInterval 200 300].
Proof. vm_compute. reflexivity. Qed.

(** ** Non-empty intersections *)

Section NonEmptyIntersection.

Implicit Types (a b : WorkingInterval).

Lemma intersected_nonempty a b :
  interval_bool (intersected a b) = true ->
  intersected a b = mkInterval (Z.max (start a) (start b))
                               (Z.min (end_ a) (end_ b))
  /\ Z.max (start a) (start b) < Z.min (end_ a) (end_ b).
Proof.
  destruct (Z_lt_dec (Z.max (start a) (start b))
                     (Z.min (end_ a) (end_ b))) as [H | H].
  - rewrite intersected_overlap by assumption. auto.
  - rewrite intersected_disjoint by lia. discriminate.
Qed.

End NonEmptyIntersection.


(** ** A separated list is determined by the time points it covers *)

Section Coverage.

Implicit Types (a b : WorkingInterval) (l : list WorkingInterval).

Lemma covers_start a : start a < end_ a -> covers a (start a).
Proof. unfold covers. lia. Qed.

Lemma separated_head_least a l (t : Z) :
  separated (a :: l) -> covered (a :: l) t -> start a <= t.
Proof.
  intros Hsep Hcov. apply covered_cons in Hcov.
  destruct Hcov as [Ha | (b & Hin & Hb)].
  - unfold covers in Ha. lia.
  - pose proof (separated_later a l Hsep) as Hlater.
    rewrite Forall_forall in Hlater. specialize (Hlater b Hin).
    destruct Hsep as (Ha & _). unfold covers in Hb. lia.
Qed.

Lemma separated_rest_after a l (t : Z) :
  separated (a :: l) -> covered l t -> end_ a < t.
Proof.
  intros Hsep (b & Hin & Hb).
  pose proof (separated_later a l Hsep) as Hlater.
  rewrite Forall_forall in Hlater. specialize (Hlater b Hin).
  unfold covers in Hb. lia.
Qed.

Lemma separated_end_bound a b l1 l2 :
  separated (a :: l1) -> separated (b :: l2) ->
  (forall t, covered (a :: l1) t -> covered (b :: l2) t) ->
  start a = start b ->
  end_ a <= end_ b.
Proof.
  intros Ha Hb Hsub Hstart.
  destruct (Z_le_gt_dec (end_ a) (end_ b)) as [Hle | Hgt]; [assumption |].
  exfalso.
  assert (Hcov : covered (a :: l1) (end_ b)).
  { apply covered_cons. left. destruct Hb as (Hb & _). unfold covers. lia. }
  apply Hsub, covered_cons in Hcov. destruct Hcov as [Hcov | Hcov].
  - unfold covers in Hcov. lia.
  - apply (separated_rest_after b l2) in Hcov; [lia | assumption].
Qed.

Lemma separated_unique l1 : forall l2,
  separated l1 -> separated l2 ->
  (forall t, covered l1 t <-> covered l2 t) ->
  l1 = l2.
Proof.
  induction l1 as [| a r1 IH]; intros [| b r2] H1 H2 Hcov.
  - reflexivity.
  - exfalso. apply (covered_nil (start b)), Hcov, covered_cons. left.
    apply covers_start. cbn in H2. tauto.
  - exfalso. apply (covered_nil (start a)), Hcov, covered_cons. left.
    apply covers_start. cbn in H1. tauto.
  - assert (Hstart : start a = start b).
    { assert (start b <= start a).
      { apply (separated_head_least b r2); [assumption |].
        apply Hcov, covered_cons. left. apply covers_start.
        cbn in H1. tauto. }
      assert (start a <= start b).
      { apply (separated_head_least a r1); [assumption |].
        apply Hcov, covered_cons. left. apply covers_start.
        cbn in H2. tauto. }
      lia. }
    assert (Hend : end_ a = end_ b).
    { pose proof (separated_end_bound a b r1 r2 H1 H2
                    (fun t => proj1 (Hcov t)) Hstart).
      pose proof (separated_end_bound b a r2 r1 H2 H1
                    (fun t => proj2 (Hcov t)) (eq_sym Hstart)).
      lia. }
    assert (Hab : a = b).
    { destruct a, b; cbn in *. congruence. }
    subst b. f_equal.
    apply IH; [exact (separated_tail _ _ H1) | exact (separated_tail _ _ H2) |].
    intros t. split; intros Ht.
    + pose proof (separated_rest_after a r1 t H1 Ht) as Hafter.
      assert (Hall : covered (a :: r2) t).
      { apply Hcov, covered_cons. now right. }
      apply covered_cons in Hall. destruct Hall as [Hall | Hall];
        [unfold covers in Hall; lia | assumption].
    + pose proof (separated_rest_after a r2 t H2 Ht) as Hafter.
      assert (Hall : covered (a :: r1) t).
      { apply Hcov, covered_cons. now right. }
      apply covered_cons in Hall. destruct Hall as [Hall | Hall];
        [unfold covers in Hall; lia | assumption].
Qed.

(** Normalization sees a list only through the time points it covers,
    whatever its step 5 is. *)
Lemma normalized_list_covered
    (wrap_around : list WorkingInterval -> list WorkingInterval) l1 l2 :
  (forall t, covered l1 t <-> covered l2 t) ->
  normalized_list wrap_around l1 = normalized_list wrap_around l2.
Proof.
  intros Hcov. unfold normalized_list. f_equal.
  apply separated_unique; try apply merge_pass_separated.
  intros t. now rewrite !merge_pass_covered.
Qed.

Lemma covered_flat_map (f : WorkingInterval -> list WorkingInterval) l
    (t : Z) :
  covered (flat_map f l) t <-> exists a, In a l /\ covered (f a) t.
Proof.
  unfold covered. split.
  - intros (x & Hin & Hx). apply in_flat_map in Hin.
    destruct Hin as (a & Ha & Hxa). exists a. split; [assumption |].
    now exists x.
  - intros (a & Ha & x & Hxa & Hx). exists x. split; [| assumption].
    apply in_flat_map. now exists a.
Qed.

End Coverage.


(** ** Extracting a day and putting it back *)

Section DayRoundTrip.

Variable dayIndex : Z.
Hypothesis dayIndex_range : 0 <= dayIndex <= 6.

Implicit Types (a : WorkingInterval) (l : list WorkingInterval).

Local Abbreviation onto_day :=
  (fun interval => shifted interval (dayIndex * kDay)).

(** A clipped interval lies in the day's window, so the shift to
    day-relative offsets and the shift back are exact. *)
Lemma clipped_shift_back a :
  interval_bool (intersected a (day_window dayIndex)) = true ->
  shifted (shifted (intersected a (day_window dayIndex))
                   (- (dayIndex * kDay)))
          (dayIndex * kDay)
  = intersected a (day_window dayIndex).
Proof.
  intros H. apply intersected_nonempty in H. destruct H as [-> H].
  set (lo := Z.max (start a) (start (day_window dayIndex))) in *.
  set (hi := Z.min (end_ a) (end_ (day_window dayIndex))) in *.
  assert (Hlo : dayIndex * kDay <= lo /\ hi <= 626400).
  { unfold lo, hi, day_window, kInNextDayMax, kDay. cbn [start end_]. lia. }
  assert (Hday : 0 <= dayIndex * kDay <= 518400) by (unfold kDay; lia).
  rewrite (shifted_exact (mkInterval lo hi)); cbn [start end_];
    [| unfold in_TimeId, TimeId_half; lia | unfold in_TimeId, TimeId_half; lia].
  rewrite shifted_exact; cbn [start end_];
    [| unfold in_TimeId, TimeId_half; lia | unfold in_TimeId, TimeId_half; lia].
  f_equal; lia.
Qed.

(** The extracted piece of an interval, shifted back onto the day, covers
    the part of the interval inside the window. *)
Lemma covered_extract_piece a (t : Z) :
  covered (map onto_day (extract_piece dayIndex a)) t
  <-> covers a t /\ covers (day_window dayIndex) t.
Proof.
  unfold extract_piece. rewrite <- covers_intersected.
  destruct (interval_bool (intersected a (day_window dayIndex))) eqn:H.
  - cbn [map]. rewrite clipped_shift_back by assumption.
    rewrite covered_cons. pose proof (covered_nil t). tauto.
  - cbn [map]. split.
    + intros Hc. now apply covered_nil in Hc.
    + intros Hc. apply covers_nonempty in Hc. congruence.
Qed.

(** The pieces removal leaves cover the part outside the window. *)
Lemma covered_remove_pieces a (t : Z) :
  covered (remove_pieces dayIndex a) t
  <-> covers a t /\ ~ covers (day_window dayIndex) t.
Proof.
  unfold remove_pieces. rewrite covered_app, !covered_flush.
  unfold covers, day_window, kInNextDayMax, kDay. cbn [start end_]. lia.
Qed.

Lemma map_flat_map (f : WorkingInterval -> WorkingInterval)
    (g : WorkingInterval -> list WorkingInterval) l :
  map f (flat_map g l) = flat_map (fun a => map f (g a)) l.
Proof.
  induction l as [| a rest IH]; [reflexivity |].
  cbn [flat_map]. now rewrite map_app, IH.
Qed.

(** Removal and the extracted day together cover what the schedule
    covers. *)
Lemma covered_remove_extract l (t : Z) :
  covered (flat_map (remove_pieces dayIndex) l
           ++ map onto_day (flat_map (extract_piece dayIndex) l)) t
  <-> covered l t.
Proof.
  rewrite map_flat_map, covered_app, !covered_flat_map. split.
  - intros [(a & Hin & Ha) | (a & Hin & Ha)]; exists a.
    + apply covered_remove_pieces in Ha. tauto.
    + apply covered_extract_piece in Ha. tauto.
  - intros (a & Hin & Ha).
    destruct (Z_le_dec (start (day_window dayIndex)) t) as [Hlo | Hlo];
      [destruct (Z_lt_dec t (end_ (day_window dayIndex))) as [Hhi | Hhi] |].
    + right. exists a. split; [assumption |]. apply covered_extract_piece.
      unfold covers in *. lia.
    + left. exists a. split; [assumption |]. apply covered_remove_pieces.
      unfold covers in *. lia.
    + left. exists a. split; [assumption |]. apply covered_remove_pieces.
      unfold covers in *. lia.
Qed.

Lemma replace_extract_list
    (wrap_around : list WorkingInterval -> list WorkingInterval) l :
  list_ (ReplaceDayIntervals wrap_around (mkIntervals l) dayIndex
           (ExtractDayIntervals (mkIntervals l) dayIndex))
  = normalized_list wrap_around l.
Proof.
  unfold ReplaceDayIntervals, normalized, RemoveDayIntervals,
    ExtractDayIntervals. cbn [list_].
  apply normalized_list_covered. intros t. apply covered_remove_extract.
Qed.

(** Nothing of the day is left to extract once it has been removed. *)
Lemma extract_after_remove l :
  list_ (ExtractDayIntervals
           (RemoveDayIntervals (mkIntervals l) dayIndex) dayIndex)
  = [].
Proof.
  unfold ExtractDayIntervals, RemoveDayIntervals. cbn [list_].
  rewrite flat_map_concat_map, concat_nil_Forall, Forall_map.
  apply Forall_forall. intros piece Hin. apply in_flat_map in Hin.
  destruct Hin as (a & _ & Hin). unfold extract_piece.
  destruct (interval_bool (intersected piece (day_window dayIndex))) eqn:H;
    [| reflexivity].
  exfalso. apply intersected_nonempty in H. destruct H as [_ H].
  assert (Hpiece : covered (remove_pieces dayIndex a)
                     (Z.max (start piece) (start (day_window dayIndex)))).
  { exists piece. split; [assumption |]. unfold covers. lia. }
  apply covered_remove_pieces in Hpiece. unfold covers in Hpiece. lia.
Qed.

End DayRoundTrip.

(** C5.  For every schedule [s] and every day index [d] in [0..6],
    [ReplaceDayIntervals(s, d, ExtractDayIntervals(s, d))] equals
    [s.normalized()], whatever step 5 of the normalization does with the
    merged list. *)
Theorem replace_extract_round_trip
    (wrap_around : list WorkingInterval -> list WorkingInterval)
    (s : WorkingIntervals) (d : Z) :
  0 <= d <= 6 ->
  ReplaceDayIntervals wrap_around s d (ExtractDayIntervals s d)
  = normalized wrap_around s.
Proof.
  intros Hd. destruct s as [l].
  pose proof (replace_extract_list d Hd wrap_around l) as H.
  destruct (ReplaceDayIntervals _ _ _ _) as [l']. cbn [list_] in H.
  unfold normalized. cbn [list_]. now f_equal.
Qed.

(** A schedule with hours on Monday evening that run past midnight, and
    its second day; step 5 here leaves the merged list as it is. *)
Lemma replace_extract_round_trip_witness :
  ReplaceDayIntervals (fun merged => merged)
    (mkIntervals [mkInterval 72000 93600; mkInterval 100000 120000])
    1
    (ExtractDayIntervals
       (mkIntervals [mkInterval 72000 93600; mkInterval 100000 120000])
       1)
  = normalized (fun merged => merged)
      (mkIntervals [mkInterval 72000 93600; mkInterval 100000 120000]).
Proof.
  apply (replace_extract_round_trip (fun merged => merged)
           (mkIntervals [mkInterval 72000 93600; mkInterval 100000 120000])
           1).
  lia.
Defined.


(** ** Further laws of the interval operations *)

Section IntervalLaws.

Implicit Types (a b c : WorkingInterval).

Lemma wrap32_add_l (u v : Z) : wrap32 (wrap32 u + v) = wrap32 (u + v).
Proof.
  unfold wrap32.
  replace ((u + TimeId_half) mod TimeId_modulus - TimeId_half + v
           + TimeId_half)
    with ((u + TimeId_half) mod TimeId_modulus + v) by lia.
  rewrite Zplus_mod_idemp_l. f_equal. f_equal. lia.
Qed.

Lemma wrap32_add_r (u v : Z) : wrap32 (u + wrap32 v) = wrap32 (u + v).
Proof. rewrite Z.add_comm, wrap32_add_l. f_equal. lia. Qed.

Lemma interval_eta a : mkInterval (start a) (end_ a) = a.
Proof. now destruct a. Qed.

End IntervalLaws.

(** Case analysis on every endpoint comparison of a goal about
    [united] and [intersected], the innermost comparison first. *)
Ltac interval_cases :=
  unfold intersected, united, interval_bool, WorkingInterval_default,
    covers in *;
  cbn [start end_ negb] in *;
  repeat match goal with
         | |- context [?x <? ?y] =>
             lazymatch x with context [_ <? _] => fail | _ => idtac end;
             lazymatch y with context [_ <? _] => fail | _ => idtac end;
             destruct (Z.ltb_spec x y); cbn [start end_ negb] in *
         end.

(** [intersected] is commutative on all intervals, empty ones included. *)
Theorem intersected_comm (a b : WorkingInterval) :
  intersected a b = intersected b a.
Proof.
  interval_cases; try reflexivity; try (f_equal; lia); exfalso; lia.
Qed.

(** [intersected] is associative on all intervals: an empty intermediate
    result is [{0, 0}], and [{0, 0}] intersected with anything is [{0, 0}]
    again. *)
Theorem intersected_assoc (a b c : WorkingInterval) :
  intersected (intersected a b) c = intersected a (intersected b c).
Proof.
  interval_cases; try reflexivity; try (f_equal; lia); exfalso; lia.
Qed.

(** The intersection covers exactly the time points both intervals
    cover. *)
Theorem intersected_common_points (a b : WorkingInterval) (t : Z) :
  covers (intersected a b) t <-> covers a t /\ covers b t.
Proof.
  interval_cases; lia.
Qed.

(** An empty operand, canonical or not and on either side, makes the
    intersection [{0, 0}]; a non-empty interval intersected with itself is
    itself. *)
Theorem intersected_empty_absorbs (a b : WorkingInterval) :
  (interval_bool a = false ->
   intersected a b = mkInterval 0 0 /\ intersected b a = mkInterval 0 0)
  /\ (interval_bool a = true -> intersected a a = a).
Proof.
  split.
  - intros H. apply interval_bool_false in H.
    split; interval_cases; try reflexivity; exfalso; lia.
  - intros H. apply interval_bool_true in H. destruct a as [s e].
    interval_cases; [f_equal; lia | exfalso; lia].
Qed.

Lemma intersected_empty_absorbs_witness :
  intersected (mkInterval 9 2) (mkInterval 0 100) = mkInterval 0 0
  /\ intersected (mkInterval 0 100) (mkInterval 0 100) = mkInterval 0 100.
Proof.
  split.
  - apply (proj1 (intersected_empty_absorbs (mkInterval 9 2)
                                            (mkInterval 0 100))).
    reflexivity.
  - apply (proj2 (intersected_empty_absorbs (mkInterval 0 100)
                                            (mkInterval 0 100))).
    reflexivity.
Defined.

(** [united] is associative on all intervals, empty ones included. *)
Theorem united_assoc (a b c : WorkingInterval) :
  united (united a b) c = united a (united b c).
Proof.
  interval_cases; try reflexivity; try (f_equal; lia); exfalso; lia.
Qed.

(** [united] commutes on a pair exactly when one of the two is non-empty
    or the two are equal: on two different empty intervals each order
    returns its own argument. *)
Theorem united_comm_iff (a b : WorkingInterval) :
  united a b = united b a
  <-> interval_bool a = true \/ interval_bool b = true \/ a = b.
Proof.
  destruct (interval_bool a) eqn:Ha, (interval_bool b) eqn:Hb.
  - split; [auto |]. intros _. now apply united_nonempty_comm.
  - split; [auto |]. intros _.
    now rewrite united_empty_r, united_empty_l.
  - split; [auto |]. intros _.
    now rewrite united_empty_l, united_empty_r.
  - rewrite !united_empty_l by assumption. split.
    + intros ->. auto.
    + intros [H | [H | H]]; congruence.
Qed.

(** The union is empty only when both operands are, and uniting an
    interval with itself changes nothing. *)
Theorem united_bool (a b : WorkingInterval) :
  interval_bool (united a b) = interval_bool a || interval_bool b
  /\ united a a = a.
Proof.
  split.
  - destruct (interval_bool a) eqn:Ha, (interval_bool b) eqn:Hb; cbn.
    + rewrite united_nonempty by assumption.
      apply interval_bool_true in Ha, Hb. apply interval_bool_true. cbn. lia.
    + now rewrite united_empty_r.
    + now rewrite united_empty_l.
    + now rewrite united_empty_l.
  - destruct a as [s e]. interval_cases; [f_equal; lia | reflexivity].
Qed.

(** [united] never loses a time point: what either operand covers, the
    union covers. *)
Theorem united_covers_operands (a b : WorkingInterval) (t : Z) :
  covers a t \/ covers b t -> covers (united a b) t.
Proof.
  interval_cases; lia.
Qed.

Lemma united_covers_operands_witness :
  covers (united (mkInterval 0 10) (mkInterval 20 30)) 25.
Proof.
  apply (united_covers_operands (mkInterval 0 10) (mkInterval 20 30) 25).
  right. unfold covers. cbn. lia.
Defined.

(** When one operand is empty, or the two overlap or touch, the union
    covers exactly the time points the operands cover. *)
Theorem united_exact (a b : WorkingInterval) :
  interval_bool a = false \/ interval_bool b = false
  \/ (start a <= end_ b /\ start b <= end_ a) ->
  forall t : Z, covers (united a b) t <-> covers a t \/ covers b t.
Proof.
  intros H t. interval_cases; lia.
Qed.

Lemma united_exact_witness :
  covers (united (mkInterval 0 10) (mkInterval 10 30)) 10
  <-> covers (mkInterval 0 10) 10 \/ covers (mkInterval 10 30) 10.
Proof.
  apply (united_exact (mkInterval 0 10) (mkInterval 10 30)).
  right. right. cbn. lia.
Defined.

(** Across a gap the union is only a bounding range: for non-empty [a]
    ending before non-empty [b] starts, it covers the point [a.end], which
    neither operand covers. *)
Theorem united_covers_gap (a b : WorkingInterval) :
  interval_bool a = true -> interval_bool b = true ->
  end_ a < start b ->
  covers (united a b) (end_ a)
  /\ ~ covers a (end_ a) /\ ~ covers b (end_ a).
Proof.
  intros Ha Hb Hgap. rewrite united_nonempty by assumption.
  apply interval_bool_true in Ha, Hb. unfold covers. cbn. lia.
Qed.

Lemma united_covers_gap_witness :
  covers (united (mkInterval 0 10) (mkInterval 20 30)) 10
  /\ ~ covers (mkInterval 0 10) 10 /\ ~ covers (mkInterval 20 30) 10.
Proof.
  apply (united_covers_gap (mkInterval 0 10) (mkInterval 20 30)).
  - reflexivity.
  - reflexivity.
  - cbn. lia.
Defined.

(** Two shifts in a row are one shift by the sum of the offsets, the sum
    taken as [TimeId] addition; this holds with wrap-around too. *)
Theorem shifted_shifted (a : WorkingInterval) (x y : Z) :
  shifted (shifted a x) y = shifted a (TimeId_add x y).
Proof.
  unfold shifted, TimeId_add. cbn [start end_].
  rewrite !wrap32_add_l, !wrap32_add_r. f_equal; f_equal; lia.
Qed.

(** On an interval of [TimeId] members a shift by zero changes nothing,
    and a shift by any offset is undone by the shift by the opposite
    offset, also when the first one wraps around. *)
Theorem shifted_inverse (a : WorkingInterval) (offset : Z) :
  interval_in_range a ->
  shifted a 0 = a
  /\ shifted (shifted a offset) (- offset) = a.
Proof.
  intros [Hs He]. destruct a as [s e]. cbn [start end_] in *.
  unfold shifted, TimeId_add. cbn [start end_]. split.
  - rewrite !Z.add_0_r, !wrap32_in_range by assumption. reflexivity.
  - rewrite !wrap32_add_sub, !wrap32_in_range by assumption. reflexivity.
Qed.

Lemma shifted_inverse_witness :
  shifted (mkInterval 10 20) 0 = mkInterval 10 20
  /\ shifted (shifted (mkInterval 10 20) (-2147483000)) (- -2147483000)
     = mkInterval 10 20.
Proof.
  apply (shifted_inverse (mkInterval 10 20) (-2147483000)).
  unfold interval_in_range, in_TimeId, TimeId_half. cbn. lia.
Defined.

(** Without overflow a shifted interval covers exactly the translated
    time points. *)
Theorem shifted_covers (a : WorkingInterval) (offset t : Z) :
  shift_in_range a offset ->
  covers (shifted a offset) t <-> covers a (t - offset).
Proof.
  intros [Hs He]. rewrite shifted_exact by assumption.
  unfold covers. cbn. lia.
Qed.

Lemma shifted_covers_witness :
  covers (shifted (mkInterval 3600 7200) kDay) 90000
  <-> covers (mkInterval 3600 7200) (90000 - kDay).
Proof.
  apply (shifted_covers (mkInterval 3600 7200) kDay 90000).
  unfold shift_in_range, in_TimeId, TimeId_half. cbn. lia.
Defined.

(** Without overflow [shifted] distributes over [united], for empty
    operands as well. *)
Theorem shifted_united (a b : WorkingInterval) (offset : Z) :
  shift_in_range a offset -> shift_in_range b offset ->
  united (shifted a offset) (shifted b offset)
  = shifted (united a b) offset.
Proof.
  intros [Has Hae] [Hbs Hbe].
  rewrite (shifted_exact a), (shifted_exact b) by assumption.
  assert (Hu : shift_in_range (united a b) offset).
  { unfold shift_in_range. interval_cases; split; unfold in_TimeId in *; lia. }
  destruct Hu as [Hus Hue]. rewrite (shifted_exact (united a b)) by assumption.
  destruct a as [sa ea], b as [sb eb].
  interval_cases; try reflexivity; try (f_equal; lia); exfalso; lia.
Qed.

Lemma shifted_united_witness :
  united (shifted (mkInterval 0 100) kWeek) (shifted (mkInterval 50 150) kWeek)
  = shifted (united (mkInterval 0 100) (mkInterval 50 150)) kWeek.
Proof.
  apply (shifted_united (mkInterval 0 100) (mkInterval 50 150) kWeek);
    unfold shift_in_range, in_TimeId, TimeId_half; cbn; lia.
Defined.

(** Without overflow [shifted] distributes over [intersected] when the
    two intervals overlap.  When they do not, the two sides differ unless
    the offset is zero: the intersection of the shifted intervals is
    [{0, 0}], the shifted intersection is [{offset, offset}]. *)
Theorem shifted_intersected (a b : WorkingInterval) (offset : Z) :
  shift_in_range a offset -> shift_in_range b offset ->
  (interval_bool (intersected a b) = true ->
   intersected (shifted a offset) (shifted b offset)
   = shifted (intersected a b) offset)
  /\ (interval_bool (intersected a b) = false ->
      in_TimeId offset ->
      intersected (shifted a offset) (shifted b offset) = mkInterval 0 0
      /\ shifted (intersected a b) offset = mkInterval offset offset).
Proof.
  intros [Has Hae] [Hbs Hbe].
  rewrite (shifted_exact a), (shifted_exact b) by assumption. split.
  - intros H. apply intersected_nonempty in H. destruct H as [Heq H].
    rewrite Heq. rewrite shifted_exact;
      [| cbn [start end_]; unfold in_TimeId in *; lia
       | cbn [start end_]; unfold in_TimeId in *; lia].
    rewrite intersected_overlap; cbn [start end_]; [f_equal; lia | lia].
  - intros H Hoff.
    assert (Hd : Z.min (end_ a) (end_ b) <= Z.max (start a) (start b)).
    { destruct (Z_lt_dec (Z.max (start a) (start b))
                         (Z.min (end_ a) (end_ b))) as [Hlt | Hge]; [| lia].
      rewrite intersected_overlap in H by assumption.
      apply interval_bool_false in H. cbn in H. lia. }
    rewrite (intersected_disjoint a b) by assumption. split.
    + apply intersected_disjoint. cbn [start end_]. lia.
    + unfold shifted, TimeId_add, WorkingInterval_default. cbn [start end_].
      now rewrite Z.add_0_l, wrap32_in_range.
Qed.

Lemma shifted_intersected_witness :
  intersected (shifted (mkInterval 0 100) kDay) (shifted (mkInterval 50 150) kDay)
  = shifted (intersected (mkInterval 0 100) (mkInterval 50 150)) kDay.
Proof.
  apply (shifted_intersected (mkInterval 0 100) (mkInterval 50 150) kDay);
    try reflexivity;
    unfold shift_in_range, in_TimeId, TimeId_half; cbn; lia.
Defined.

(** ** Further properties of the schedule and of the business details *)

(** A schedule converts to [true] exactly when it covers at least one
    time point. *)
Theorem intervals_bool_covered (s : WorkingIntervals) :
  intervals_bool s = true <-> exists t : Z, covered (list_ s) t.
Proof.
  unfold intervals_bool. rewrite any_interval_true. unfold covered, covers.
  split.
  - intros (a & Hin & Ha). exists (start a), a. split; [assumption | lia].
  - intros (t & a & Hin & Ha). exists a. split; [assumption | lia].
Qed.

(** The early return of the loop makes no difference to the result: the
    conversion of a concatenation is the disjunction of the conversions,
    and the order of the intervals does not matter. *)
Theorem intervals_bool_order (l1 l2 : list WorkingInterval) :
  intervals_bool (mkIntervals (l1 ++ l2))
  = intervals_bool (mkIntervals l1) || intervals_bool (mkIntervals l2)
  /\ (Permutation l1 l2 ->
      intervals_bool (mkIntervals l1) = intervals_bool (mkIntervals l2)).
Proof.
  unfold intervals_bool. cbn [list_]. split.
  - induction l1 as [| a rest IH]; cbn; [reflexivity |].
    now destruct (interval_bool a).
  - intros Hperm. apply eq_true_iff_eq. rewrite !any_interval_true.
    split; intros (a & Hin & Ha); exists a; split; try assumption.
    + now apply (Permutation_in a Hperm).
    + now apply (Permutation_in a (Permutation_sym Hperm)).
Qed.

Lemma intervals_bool_order_witness :
  intervals_bool (mkIntervals [mkInterval 5 5; mkInterval 0 10])
  = intervals_bool (mkIntervals [mkInterval 0 10; mkInterval 5 5]).
Proof.
  apply (proj2 (intervals_bool_order [mkInterval 5 5; mkInterval 0 10]
                                     [mkInterval 0 10; mkInterval 5 5])).
  apply perm_swap.
Defined.

(** A [BusinessDetails] value converts to [false] exactly when both the
    timezone identifier and the address are empty strings, whatever its
    intervals and its location point are. *)
Theorem details_bool_false {LocationPoint : Type}
    (d : BusinessDetails LocationPoint) :
  details_bool d = false
  <-> timezoneId (hours d) = EmptyString
      /\ address (location d) = EmptyString.
Proof.
  unfold details_bool, hours_bool, location_bool.
  destruct (timezoneId (hours d)), (address (location d)); cbn;
    split; try discriminate; try tauto; intros [? ?]; discriminate.
Qed.

(** ** The chat-type flags *)

Section ChatTypeFlags.

Lemma BusinessChatType_eq_dec (x y : BusinessChatType) : {x = y} + {x <> y}.
Proof. decide equality. Qed.

Lemma BusinessChatType_value_land (x y : BusinessChatType) :
  Z.land (BusinessChatType_value x) (BusinessChatType_value y)
  = if BusinessChatType_eq_dec x y then BusinessChatType_value y else 0.
Proof.
  destruct (BusinessChatType_eq_dec x y) as [-> | Hne].
  - apply Z.land_diag.
  - destruct x, y; try reflexivity; contradiction.
Qed.

End ChatTypeFlags.

(** The four chat types are separate bits: in the bitwise or of any list
    of chat types, masking with one type gives that type's value when the
    type is in the list and 0 when it is not, so a set of chat types is
    read back from its flags without ambiguity. *)
Theorem BusinessChatTypes_membership (types : list BusinessChatType)
    (type : BusinessChatType) :
  (In type types ->
   Z.land (BusinessChatTypes_of types) (BusinessChatType_value type)
   = BusinessChatType_value type)
  /\ (~ In type types ->
      Z.land (BusinessChatTypes_of types) (BusinessChatType_value type) = 0)
  /\ BusinessChatType_value type <> 0.
Proof.
  assert (Hstep : forall l,
             Z.land (BusinessChatTypes_of l) (BusinessChatType_value type)
             = if in_dec BusinessChatType_eq_dec type l
               then BusinessChatType_value type else 0).
  { induction l as [| x rest IH]; [reflexivity |].
    cbn [BusinessChatTypes_of fold_right]. fold (BusinessChatTypes_of rest).
    rewrite Z.land_lor_distr_l, IH, BusinessChatType_value_land.
    destruct (in_dec BusinessChatType_eq_dec type (x :: rest)) as [Hin | Hout];
      destruct (BusinessChatType_eq_dec x type) as [-> | Hne];
      destruct (in_dec BusinessChatType_eq_dec type rest) as [Hr | Hr];
      cbn [In] in *;
      try (exfalso; tauto);
      rewrite ?Z.lor_diag, ?Z.lor_0_r, ?Z.lor_0_l; reflexivity. }
  split; [| split].
  - intros Hin. rewrite Hstep.
    now destruct (in_dec BusinessChatType_eq_dec type types).
  - intros Hout. rewrite Hstep.
    now destruct (in_dec BusinessChatType_eq_dec type types).
  - destruct type; discriminate.
Qed.

Lemma BusinessChatTypes_membership_witness :
  Z.land (BusinessChatTypes_of [NewChats; NonContacts])
         (BusinessChatType_value NonContacts)
  = BusinessChatType_value NonContacts
  /\ Z.land (BusinessChatTypes_of [NewChats; NonContacts])
            (BusinessChatType_value Contacts)
     = 0.
Proof.
  split.
  - apply (proj1 (BusinessChatTypes_membership [NewChats; NonContacts]
                                               NonContacts)).
    cbn. tauto.
  - apply (proj1 (proj2 (BusinessChatTypes_membership
                           [NewChats; NonContacts] Contacts))).
    cbn. intros [H | [H | []]]; discriminate.
Defined.

(** ** Shared media types and their separate windows *)

Section SeparateWindows.

Variable E : Storage.SharedMediaType_values.

(** With pairwise different enumerators no test of the chain shadows a
    later one: every enumerator goes to the separate type of its name. *)
Lemma ToSeparateType_table :
  NoDup (Storage.separable E) ->
  ToSeparateType E (Storage.Photo E) = Window.Photos
  /\ ToSeparateType E (Storage.Video E) = Window.Videos
  /\ ToSeparateType E (Storage.File E) = Window.Files
  /\ ToSeparateType E (Storage.MusicFile E) = Window.Audio
  /\ ToSeparateType E (Storage.Link E) = Window.Links
  /\ ToSeparateType E (Storage.RoundVoiceFile E) = Window.Voices
  /\ ToSeparateType E (Storage.GIF E) = Window.GIF.
Proof.
  destruct E as [p v f m l r g]. unfold Storage.separable, ToSeparateType.
  cbn [Storage.Photo Storage.Video Storage.File Storage.MusicFile
       Storage.Link Storage.RoundVoiceFile Storage.GIF].
  intros H. repeat rewrite NoDup_cons_iff in H. cbn [In] in H.
  repeat match goal with
         | H : _ /\ _ |- _ => destruct H
         | H : ~ (_ \/ _) |- _ => apply Decidable.not_or in H
         end.
  repeat split;
    repeat match goal with
           | |- context [?x =? ?x] => rewrite (Z.eqb_refl x)
           | Hne : ?x <> ?y |- context [?x =? ?y] =>
               rewrite (proj2 (Z.eqb_neq x y) Hne)
           | Hne : ?y <> ?x |- context [?x =? ?y] =>
               rewrite (proj2 (Z.eqb_neq x y) (not_eq_sym Hne))
           end;
    reflexivity.
Qed.

Lemma ToSeparateType_None (type : Z) :
  ToSeparateType E type = Window.None <-> ~ In type (Storage.separable E).
Proof.
  unfold ToSeparateType, Storage.separable. cbn [In].
  repeat match goal with
         | |- context [?x =? ?y] =>
             destruct (Z.eqb_spec x y) as [? | ?];
             [split; [discriminate | intros H; exfalso; apply H; subst; auto 10] |]
         end.
  split; [| reflexivity]. intros _ H.
  repeat match goal with
         | H : _ \/ _ |- _ => destruct H as [H | H]
         end;
    try contradiction; congruence.
Qed.

End SeparateWindows.

(** When the seven enumerators are pairwise different, no test of the
    chain shadows a later one, and [ToSeparateType] is injective on them:
    two different media types among the seven never share a separate
    window type. *)
Theorem ToSeparateType_distinct (E : Storage.SharedMediaType_values)
    (type1 type2 : Z) :
  NoDup (Storage.separable E) ->
  In type1 (Storage.separable E) ->
  In type2 (Storage.separable E) ->
  type1 <> type2 ->
  ToSeparateType E type1 <> ToSeparateType E type2.
Proof.
  intros Hdistinct H1 H2.
  destruct (ToSeparateType_table E Hdistinct)
    as (Hp & Hv & Hf & Hm & Hl & Hr & Hg).
  unfold Storage.separable in H1, H2. cbn [In] in H1, H2.
  repeat match goal with
         | H : _ \/ _ |- _ => destruct H as [H | H]
         end;
    try contradiction; subst;
    rewrite ?Hp, ?Hv, ?Hf, ?Hm, ?Hl, ?Hr, ?Hg;
    intros Hne; try discriminate; contradiction.
Qed.

Lemma ToSeparateType_distinct_witness :
  ToSeparateType (Storage.mkValues 0 1 4 3 6 8 9) 3
  <> ToSeparateType (Storage.mkValues 0 1 4 3 6 8 9) 8.
Proof.
  apply (ToSeparateType_distinct (Storage.mkValues 0 1 4 3 6 8 9) 3 8).
  - unfold Storage.separable. cbn.
    repeat (constructor; [cbn; lia |]). constructor.
  - cbn. tauto.
  - cbn. tauto.
  - lia.
Defined.

(** [SeparateWindowFactory] returns [nullptr] exactly for the media types
    that are none of the seven enumerators; for every other type its
    callback opens the window of [ToSeparateType(type)], never of [None],
    for the peer it was given. *)
Theorem SeparateWindowFactory_spec {PeerData : Type}
    (E : Storage.SharedMediaType_values) (peer : PeerData) (type : Z) :
  (SeparateWindowFactory E peer type = None
   <-> ~ In type (Storage.separable E))
  /\ (In type (Storage.separable E) ->
      SeparateWindowFactory E peer type
      = Some (ToSeparateType E type, peer)
      /\ ToSeparateType E type <> Window.None).
Proof.
  pose proof (ToSeparateType_None E type) as HNone.
  unfold SeparateWindowFactory.
  destruct (ToSeparateType E type) eqn:Hsep; cbv iota.
  1: { split.
       - split; [intros _; now apply HNone | reflexivity].
       - intros Hin. exfalso. now apply (proj1 HNone eq_refl). }
  all: split;
    [ split; [discriminate | intros H; apply HNone in H; discriminate]
    | intros _; split; [reflexivity | discriminate] ].
Qed.

Lemma SeparateWindowFactory_spec_witness :
  SeparateWindowFactory (Storage.mkValues 0 1 4 3 6 8 9) tt 6
  = Some (ToSeparateType (Storage.mkValues 0 1 4 3 6 8 9) 6, tt)
  /\ ToSeparateType (Storage.mkValues 0 1 4 3 6 8 9) 6 <> Window.None.
Proof.
  apply (proj2 (SeparateWindowFactory_spec
                  (Storage.mkValues 0 1 4 3 6 8 9) tt 6)).
  cbn. tauto.
Defined.
